(** * TFC anvil calculator: a shallow embedding of [TFC_anvil_calculator.py]

    The module searches for a combination (with repetition) of the eight
    anvil modifiers whose sum is a target value.  Python integers are
    unbounded, so they are [Z]; a tuple of integers is a [list Z]; a set of
    tuples is kept as the list of its members in enumeration order.

    The enumeration order of a Python set is a function of the sequence of
    insertions that built it (the hash of an integer tuple is fixed), but it
    is not a designed order.  The development is therefore parametric in a
    [SetOrder]: any function from the insertion sequence to a duplicate-free
    enumeration of the same members.  The [while True] loop of [main] is
    bounded by a number of rounds. *)

From Stdlib Require Import String.
From Stdlib Require Import ZArith List Bool Lia.
From Stdlib Require Import Permutation Sorted.
Import ListNotations.

#[local] Open Scope Z_scope.

(** ** Python values and exceptions *)

Abbreviation tuple := (list Z).

Inductive exn : Type :=
| ValueError (msg : String.string)
| ZeroDivisionError (msg : String.string).

(** A call either raises ([inl]) or returns ([inr]). *)
Definition result (A : Type) : Type := (exn + A)%type.

Definition ret {A : Type} (a : A) : result A := inr a.
Definition raise {A : Type} (e : exn) : result A := inl e.

Definition bind {A B : Type} (m : result A) (k : A -> result B) : result B :=
  match m with
  | inl e => inl e
  | inr a => k a
  end.

Notation "x <- m ;; k" := (bind m (fun x => k))
  (at level 61, m at next level, right associativity).
Notation "' p <- m ;; k" := (bind m (fun p => k))
  (at level 61, p pattern, m at next level, right associativity).

(** ** The builtins the module calls *)

Module Py.

(** [sum(l)]: left-to-right accumulation from 0. *)
Definition sum (l : list Z) : Z := fold_left Z.add l 0.

(** [max(l)] and [min(l)] raise [ValueError] on an empty list. *)
Definition max (l : list Z) : result Z :=
  match l with
  | [] => raise (ValueError "max() arg is an empty sequence"%string)
  | x :: xs => ret (fold_left Z.max xs x)
  end.

Definition min (l : list Z) : result Z :=
  match l with
  | [] => raise (ValueError "min() arg is an empty sequence"%string)
  | x :: xs => ret (fold_left Z.min xs x)
  end.

(** [a // b]: floor division, [ZeroDivisionError] when [b] is 0.
    [Z.div] rounds towards minus infinity, like Python's [//]. *)
Definition floordiv (a b : Z) : result Z :=
  if b =? 0 then raise (ZeroDivisionError "integer division by zero"%string)
  else ret (a / b).

(** [sorted(l)] on integers: the ascending rearrangement of [l]. *)
Fixpoint insert (x : Z) (l : list Z) : list Z :=
  match l with
  | [] => [x]
  | y :: l' => if x <=? y then x :: l else y :: insert x l'
  end.

Fixpoint sorted (l : list Z) : list Z :=
  match l with
  | [] => []
  | x :: l' => insert x (sorted l')
  end.

(** [[x] * n]: the empty list when [n <= 0]. *)
Definition replicate (x : Z) (n : Z) : list Z := repeat x (Z.to_nat n).

(** [x in l] *)
Definition contains (x : Z) (l : list Z) : bool := existsb (Z.eqb x) l.

End Py.

(** ** Sets of tuples *)

Definition tuple_eq_dec : forall x y : tuple, {x = y} + {x <> y} :=
  list_eq_dec Z.eq_dec.

(** [set_of l] is the enumeration of the set built by inserting the members
    of [l] one after the other. *)
Class SetOrder : Type := {
  set_of : list tuple -> list tuple;
  set_of_NoDup : forall l, NoDup (set_of l);
  set_of_In : forall l x, In x (set_of l) <-> In x l
}.

(** One such order, used to run the module on concrete inputs: the
    duplicate-free sublist of the insertion sequence that [nodup] keeps. *)
Instance listed_order : SetOrder := {|
  set_of := nodup tuple_eq_dec;
  set_of_NoDup := NoDup_nodup tuple_eq_dec;
  set_of_In := nodup_In tuple_eq_dec
|}.

(** Another one: the same members, enumerated the other way round. *)
Definition reversed_order : SetOrder := {|
  set_of := fun l => rev (nodup tuple_eq_dec l);
  set_of_NoDup := fun l => NoDup_rev (NoDup_nodup tuple_eq_dec l);
  set_of_In := fun l x =>
    iff_trans (iff_sym (in_rev (nodup tuple_eq_dec l) x))
              (nodup_In tuple_eq_dec l x)
|}.

(** ** The module *)

Section Calculator.

Context {order : SetOrder}.

Definition detect_multiplier (target : Z) (modifiers : list Z)
  : result (Z * Z) :=
  if target >? 0 then
    base_modifier <- Py.max modifiers ;;
    let temp := target - Py.sum (filter (fun x => x >? 0) modifiers) in
    base_modifier_multiplier <- Py.floordiv temp base_modifier ;;
    ret (base_modifier_multiplier, base_modifier)
  else
    base_modifier <- Py.min modifiers ;;
    let temp := target + Py.sum (filter (fun x => x <? 0) modifiers) in
    base_modifier_multiplier <- Py.floordiv temp base_modifier ;;
    ret (base_modifier_multiplier, base_modifier).

Definition generate_multiplier_first_moves
    (base_modifier_multiplier base_modifier : Z) (modifiers : list Z)
  : list tuple :=
  if base_modifier_multiplier <=? 1 then
    set_of (map (fun i => [i]) modifiers)
  else
    set_of [Py.replicate base_modifier base_modifier_multiplier].

Definition multiplier_calibration (target : Z) (modifiers : list Z)
  : result (list tuple) :=
  ' (base_modifier_multiplier, base_modifier) <-
      detect_multiplier target modifiers ;;
  ret (generate_multiplier_first_moves
         base_modifier_multiplier base_modifier modifiers).

Definition expand_modifiers (a : list tuple) (modifiers : list Z)
  : list tuple :=
  set_of (flat_map
            (fun x => map (fun y => Py.sorted (x ++ [y])) modifiers) a).

Definition modifiers : list Z := [-5; -6; -9; -15; 2; 7; 13; 16].

Definition validation_message : String.string :=
  "One or more of the (must include) value(s) is not included in the available modifiers."%string.

(** The [for include in must_include] check. *)
Fixpoint validate (must_include : list Z) : result unit :=
  match must_include with
  | [] => ret tt
  | include :: rest =>
      if negb (Py.contains include modifiers)
      then raise (ValueError validation_message)
      else validate rest
  end.

(** One pass of [for i in combinations]: the candidates whose sum was
    compared with the target, in order, and the first one that matched. *)
Fixpoint scan (target : Z) (combinations : list tuple)
  : list tuple * option tuple :=
  match combinations with
  | [] => ([], None)
  | i :: rest =>
      if Py.sum i =? target then ([i], Some i)
      else let '(seen, found) := scan target rest in (i :: seen, found)
  end.

(** What a run of [main] leaves behind: every candidate it scanned (the
    source counts them in [count]) and the answer, if the loop returned
    within the given number of rounds. *)
Record run : Type := {
  scanned : list tuple;
  answer : option (list Z)
}.

Fixpoint search (rounds : nat) (target : Z) (must_include : list Z)
    (combinations : list tuple) : run :=
  match rounds with
  | O => {| scanned := []; answer := None |}
  | S rounds' =>
      match scan target combinations with
      | (seen, Some i) =>
          {| scanned := seen; answer := Some (must_include ++ i) |}
      | (seen, None) =>
          let r := search rounds' target must_include
                     (expand_modifiers combinations modifiers) in
          {| scanned := seen ++ scanned r; answer := answer r |}
      end
  end.

Definition main (rounds : nat) (target : Z) (must_include : list Z)
  : result run :=
  _ <- validate must_include ;;
  let target := target - Py.sum must_include in
  combinations <- multiplier_calibration target modifiers ;;
  ret (search rounds target must_include combinations).

(** The candidate set the loop holds after [k] passes without a match:
    [combinations = expand_modifiers(combinations, modifiers)], [k]
    times. *)
Fixpoint round (k : nat) (combinations : list tuple) : list tuple :=
  match k with
  | O => combinations
  | S k' => round k' (expand_modifiers combinations modifiers)
  end.

End Calculator.

(** ** Sample inputs *)

Definition two_candidates : list tuple := [[2; 7]; [-5; 16]].

(** Nine of the orderings of the four positive modifiers. *)
Definition nine_orderings : list tuple :=
  [ [2; 7; 13; 16]; [2; 7; 16; 13]; [2; 13; 7; 16];
    [2; 13; 16; 7]; [2; 16; 7; 13]; [2; 16; 13; 7];
    [7; 2; 13; 16]; [7; 2; 16; 13]; [7; 13; 2; 16] ].

(** ** Bounded sums of modifiers

    [covers L n]: some list of at most [L] fixed modifiers sums to [n]. *)

Fixpoint covers (L : nat) (n : Z) : bool :=
  (n =? 0) ||
  match L with
  | O => false
  | S L' => existsb (fun m => covers L' (n - m)) modifiers
  end.

(** The same question for a sum of at most [L] members of [ms], each
    member tried only after the ones before it in [ms]. *)
Fixpoint sums_to (ms : list Z) : nat -> Z -> bool :=
  match ms with
  | [] => fun _ n => n =? 0
  | m :: ms' =>
      fix use (L : nat) (n : Z) {struct L} : bool :=
        sums_to ms' L n ||
        match L with
        | O => false
        | S L' => use L' (n - m)
        end
  end.

(** The integers [lo], [lo + 1], ..., [lo + len - 1]. *)
Definition interval (lo : Z) (len : nat) : list Z :=
  map (fun i => lo + Z.of_nat i) (seq 0 len).

(** The length of the tuples of the seed. *)
Definition seed_length (r : Z) : nat :=
  if r <=? 1 then 1%nat else Z.to_nat r.

(** ** Facts about the builtins *)

Section Builtins.

Lemma fold_add_shift (l : list Z) (a : Z) :
  fold_left Z.add l a = a + Py.sum l.
Proof.
  unfold Py.sum; revert a; induction l as [|x l IH]; intros a; simpl.
  - lia.
  - rewrite (IH (a + x)), (IH x); lia.
Qed.

Lemma sum_nil : Py.sum [] = 0.
Proof. reflexivity. Qed.

Lemma sum_cons (x : Z) (l : list Z) : Py.sum (x :: l) = x + Py.sum l.
Proof. unfold Py.sum at 1; simpl; rewrite fold_add_shift; lia. Qed.

Lemma sum_app (l1 l2 : list Z) : Py.sum (l1 ++ l2) = Py.sum l1 + Py.sum l2.
Proof.
  induction l1 as [|x l1 IH]; cbn [app].
  - rewrite sum_nil; lia.
  - rewrite !sum_cons, IH; lia.
Qed.

Lemma sum_Permutation (l1 l2 : list Z) :
  Permutation l1 l2 -> Py.sum l1 = Py.sum l2.
Proof.
  induction 1; rewrite ?sum_cons; lia.
Qed.

Lemma sum_repeat (x : Z) (n : nat) : Py.sum (repeat x n) = Z.of_nat n * x.
Proof.
  induction n as [|n IH].
  - reflexivity.
  - cbn [repeat]; rewrite sum_cons, IH; lia.
Qed.

Lemma insert_Permutation (x : Z) (l : list Z) :
  Permutation (Py.insert x l) (x :: l).
Proof.
  induction l as [|y l IH]; simpl.
  - reflexivity.
  - destruct (x <=? y).
    + reflexivity.
    + rewrite IH; apply perm_swap.
Qed.

Lemma sorted_Permutation (l : list Z) : Permutation (Py.sorted l) l.
Proof.
  induction l as [|x l IH]; simpl.
  - reflexivity.
  - rewrite insert_Permutation; auto.
Qed.

Lemma insert_Sorted (x : Z) (l : list Z) :
  Sorted Z.le l -> Sorted Z.le (Py.insert x l).
Proof.
  induction 1 as [|y l Hl IH Hhd]; simpl.
  - repeat constructor.
  - destruct (x <=? y) eqn:E.
    + constructor; [constructor; assumption|].
      constructor; lia.
    + constructor; [assumption|].
      destruct l as [|z l]; simpl.
      * constructor; lia.
      * inversion Hhd; subst.
        destruct (x <=? z); constructor; lia.
Qed.

Lemma sorted_Sorted (l : list Z) : Sorted Z.le (Py.sorted l).
Proof.
  induction l as [|x l IH]; simpl.
  - constructor.
  - apply insert_Sorted, IH.
Qed.

Ltac split_leb :=
  repeat match goal with
         | |- context [?x <=? ?y] => destruct (Z.leb_spec x y); simpl
         end.

Lemma insert_insert (a b : Z) (l : list Z) :
  Py.insert a (Py.insert b l) = Py.insert b (Py.insert a l).
Proof.
  induction l as [|y l IH]; simpl; split_leb;
    try reflexivity; try lia;
    try (assert (a = b) by lia; subst; reflexivity).
  rewrite IH; reflexivity.
Qed.

(** [sorted] sees a list as a multiset. *)
Lemma sorted_respects_Permutation (l1 l2 : list Z) :
  Permutation l1 l2 -> Py.sorted l1 = Py.sorted l2.
Proof.
  induction 1; simpl.
  - reflexivity.
  - congruence.
  - apply insert_insert.
  - congruence.
Qed.

Lemma sorted_fixpoint (l : list Z) : Sorted Z.le l -> Py.sorted l = l.
Proof.
  induction 1 as [|x l Hl IH Hhd]; simpl.
  - reflexivity.
  - rewrite IH.
    destruct Hhd as [|y l Hxy]; simpl.
    + reflexivity.
    + destruct (x <=? y) eqn:E; [reflexivity|lia].
Qed.

Lemma sorted_idempotent (l : list Z) : Py.sorted (Py.sorted l) = Py.sorted l.
Proof. apply sorted_fixpoint, sorted_Sorted. Qed.

(** Two ascending lists with the same members are the same list. *)
Lemma Sorted_Permutation_eq (l1 l2 : list Z) :
  Sorted Z.le l1 -> Sorted Z.le l2 -> Permutation l1 l2 -> l1 = l2.
Proof.
  intros H1 H2 HP.
  rewrite <- (sorted_fixpoint l1 H1), <- (sorted_fixpoint l2 H2).
  apply sorted_respects_Permutation, HP.
Qed.

Lemma sorted_snoc (x : tuple) (y : Z) :
  Permutation (Py.sorted (x ++ [y])) (y :: x).
Proof.
  rewrite sorted_Permutation.
  rewrite Permutation_app_comm; reflexivity.
Qed.

Lemma contains_In (x : Z) (l : list Z) : Py.contains x l = true <-> In x l.
Proof.
  unfold Py.contains; rewrite existsb_exists; split.
  - intros (y & Hy & E); apply Z.eqb_eq in E; subst; assumption.
  - intros H; exists x; split; [assumption|apply Z.eqb_refl].
Qed.

End Builtins.

(** ** Sets of tuples, whatever their enumeration order *)

Section Sets.

Context {order : SetOrder}.

Lemma set_of_singleton (x : tuple) : set_of [x] = [x].
Proof.
  pose proof (set_of_NoDup [x]) as Hnd.
  pose proof (set_of_In [x]) as Hin.
  destruct (set_of [x]) as [|t l].
  - exfalso; apply (Hin x); simpl; auto.
  - assert (t = x) as ->.
    { destruct (Hin t) as [H _]; destruct H as [H|[]]; simpl; auto. }
    destruct l as [|t' l]; [reflexivity|].
    assert (t' = x) as ->.
    { destruct (Hin t') as [H _]; destruct H as [H|[]]; simpl; auto. }
    inversion Hnd as [|? ? Hx _]; subst; exfalso; apply Hx; simpl; auto.
Qed.

(** The cardinality of a set does not depend on the order. *)
Lemma set_of_length (l : list tuple) :
  length (set_of l) = length (nodup tuple_eq_dec l).
Proof.
  apply Permutation_length, NoDup_Permutation.
  - apply set_of_NoDup.
  - apply NoDup_nodup.
  - intros x; rewrite set_of_In, nodup_In; reflexivity.
Qed.

Lemma expand_modifiers_In (a : list tuple) (M : list Z) (t : tuple) :
  In t (expand_modifiers a M) <->
  exists x y, In x a /\ In y M /\ t = Py.sorted (x ++ [y]).
Proof.
  unfold expand_modifiers; rewrite set_of_In, in_flat_map; split.
  - intros (x & Hx & Ht); apply in_map_iff in Ht as (y & <- & Hy); eauto.
  - intros (x & y & Hx & Hy & ->); exists x; split; [assumption|].
    apply in_map_iff; eauto.
Qed.

Lemma expand_modifiers_NoDup (a : list tuple) (M : list Z) :
  NoDup (expand_modifiers a M).
Proof. apply set_of_NoDup. Qed.

Lemma expand_modifiers_Sorted (a : list tuple) (M : list Z) (t : tuple) :
  In t (expand_modifiers a M) -> Sorted Z.le t.
Proof.
  rewrite expand_modifiers_In; intros (x & y & _ & _ & ->).
  apply sorted_Sorted.
Qed.

Lemma sorted_length (l : list Z) : length (Py.sorted l) = length l.
Proof. apply Permutation_length, sorted_Permutation. Qed.

Lemma seed_small (r p : Z) (M : list Z) (t : tuple) :
  r <= 1 ->
  In t (generate_multiplier_first_moves r p M) <-> exists m, In m M /\ t = [m].
Proof.
  intros Hr; unfold generate_multiplier_first_moves.
  destruct (Z.leb_spec r 1); [|lia].
  rewrite set_of_In, in_map_iff; split.
  - intros (m & <- & Hm); eauto.
  - intros (m & Hm & ->); eauto.
Qed.

Lemma seed_large (r p : Z) (M : list Z) :
  1 < r -> generate_multiplier_first_moves r p M = [repeat p (Z.to_nat r)].
Proof.
  intros Hr; unfold generate_multiplier_first_moves.
  destruct (Z.leb_spec r 1); [lia|].
  apply set_of_singleton.
Qed.

Lemma seed_NoDup (r p : Z) (M : list Z) :
  NoDup (generate_multiplier_first_moves r p M).
Proof.
  unfold generate_multiplier_first_moves.
  destruct (r <=? 1); apply set_of_NoDup.
Qed.

End Sets.

(** ** The expander *)

Lemma expand_modifiers_card {order : SetOrder}
    (a : list tuple) (M : list Z) (y : Z) :
  In y M -> NoDup a -> Forall (Sorted Z.le) a ->
  (length a <= length (expand_modifiers a M))%nat.
Proof.
  intros Hy Hnd Hs.
  rewrite <- (length_map (fun x => Py.sorted (x ++ [y])) a).
  apply NoDup_incl_length.
  - apply NoDup_map_NoDup_ForallPairs; [|assumption].
    intros x x' Hx Hx' E.
    rewrite Forall_forall in Hs.
    apply Sorted_Permutation_eq; auto.
    apply (Permutation_app_inv_r [y]).
    rewrite <- (sorted_Permutation (x ++ [y])), E.
    apply sorted_Permutation.
  - intros t Ht; apply in_map_iff in Ht as (x & <- & Hx).
    apply expand_modifiers_In; eauto.
Qed.

(** C4. [expand_modifiers a M] is a set (no member twice) whose members are
    exactly the ascending rearrangements of [x ++ [y]] for [x] in [a] and
    [y] in [M]; when every tuple of [a] has length [k], every member has
    length [k + 1]; and two members that are permutations of one another
    are the same member. *)
Theorem expand_modifiers_product {order : SetOrder}
    (a : list tuple) (M : list Z) (k : nat) :
  Forall (fun x => length x = k) a ->
  NoDup (expand_modifiers a M) /\
  (forall t, In t (expand_modifiers a M) <->
             exists x y, In x a /\ In y M /\
                         Sorted Z.le t /\ Permutation t (x ++ [y])) /\
  Forall (fun t => length t = S k) (expand_modifiers a M) /\
  (forall t1 t2, In t1 (expand_modifiers a M) ->
                 In t2 (expand_modifiers a M) ->
                 Permutation t1 t2 -> t1 = t2).
Proof.
  intros Hk; repeat split.
  - apply expand_modifiers_NoDup.
  - rewrite expand_modifiers_In; intros (x & y & Hx & Hy & ->).
    exists x, y; auto using sorted_Sorted, sorted_Permutation.
  - intros (x & y & Hx & Hy & Hs & Hp); apply expand_modifiers_In.
    exists x, y; repeat split; auto.
    apply Sorted_Permutation_eq; auto using sorted_Sorted.
    rewrite Hp; symmetry; apply sorted_Permutation.
  - apply Forall_forall; intros t Ht.
    apply expand_modifiers_In in Ht as (x & y & Hx & _ & ->).
    rewrite Forall_forall in Hk.
    rewrite sorted_length, length_app, (Hk x Hx); simpl; lia.
  - intros t1 t2 H1 H2 Hp.
    apply Sorted_Permutation_eq; eauto using expand_modifiers_Sorted.
Qed.

Lemma expand_modifiers_product_witness :
  Forall (fun x => length x = 1%nat) [[2]; [7]] /\
  Forall (fun t => length t = 2%nat)
         (expand_modifiers (order := listed_order) [[2]; [7]] [-5; 2; 7]).
Proof.
  split.
  - repeat constructor.
  - apply (expand_modifiers_product (order := listed_order)
             [[2]; [7]] [-5; 2; 7] 1%nat).
    repeat constructor.
Defined.

(** C8, as the driver uses the expander.  Every candidate set of [main]
    holds ascending tuples only; on such a non-empty set of equal-length
    tuples the expansion by the fixed modifier list has at least as many
    members as the set it expands. *)
Theorem expand_modifiers_grows {order : SetOrder} (a : list tuple) (k : nat) :
  a <> [] -> NoDup a ->
  Forall (fun x => length x = k) a ->
  Forall (Sorted Z.le) a ->
  (length a <= length (expand_modifiers a modifiers))%nat.
Proof.
  intros _ Hnd _ Hs.
  apply (expand_modifiers_card a modifiers 16); auto.
  unfold modifiers; simpl; tauto.
Qed.

Lemma expand_modifiers_grows_witness :
  two_candidates <> [] /\
  NoDup two_candidates /\
  Forall (fun x => length x = 2%nat) two_candidates /\
  Forall (Sorted Z.le) two_candidates /\
  (length two_candidates
   <= length (expand_modifiers (order := listed_order)
                two_candidates modifiers))%nat.
Proof.
  assert (H1 : two_candidates <> []) by discriminate.
  assert (H2 : NoDup two_candidates).
  { repeat constructor; simpl; intuition discriminate. }
  assert (H3 : Forall (fun x => length x = 2%nat) two_candidates)
    by (repeat constructor).
  assert (H4 : Forall (Sorted Z.le) two_candidates).
  { repeat constructor; lia. }
  repeat split; try assumption.
  exact (expand_modifiers_grows (order := listed_order)
           two_candidates 2%nat H1 H2 H3 H4).
Defined.

(** C8 as stated fails: a set of equal-length tuples may hold several
    orderings of the same members, and the expander merges them.  The nine
    tuples of [nine_orderings] expand to eight, in every enumeration
    order. *)
Lemma expand_modifiers_can_shrink :
  nine_orderings <> [] /\
  NoDup nine_orderings /\
  Forall (fun x => length x = 4%nat) nine_orderings /\
  (forall order : SetOrder,
      length (@expand_modifiers order nine_orderings modifiers) = 8%nat /\
      (length (@expand_modifiers order nine_orderings modifiers)
       < length nine_orderings)%nat).
Proof.
  split; [discriminate|].
  split.
  { replace nine_orderings with (nodup tuple_eq_dec nine_orderings)
      by (vm_compute; reflexivity).
    apply NoDup_nodup. }
  split; [repeat constructor|].
  intros order; unfold expand_modifiers.
  rewrite set_of_length; vm_compute; split; [reflexivity|lia].
Qed.

(** ** The estimator *)

Lemma fold_max_spec (xs : list Z) (x : Z) :
  let m := fold_left Z.max xs x in
  In m (x :: xs) /\ forall y, In y (x :: xs) -> y <= m.
Proof.
  revert x; induction xs as [|z xs IH]; intros x; simpl.
  - split; [auto|]. intros y [<-|[]]; lia.
  - destruct (IH (Z.max x z)) as [Hin Hub]; simpl in Hin, Hub; split.
    + destruct Hin as [E|Hin]; [|auto].
      rewrite <- E; destruct (Z.max_spec x z) as [[_ ->]|[_ ->]]; auto.
    + intros y [<-|[<-|Hy]].
      * specialize (Hub (Z.max x z) (or_introl eq_refl)); lia.
      * specialize (Hub (Z.max x z) (or_introl eq_refl)); lia.
      * auto.
Qed.

Lemma fold_min_spec (xs : list Z) (x : Z) :
  let m := fold_left Z.min xs x in
  In m (x :: xs) /\ forall y, In y (x :: xs) -> m <= y.
Proof.
  revert x; induction xs as [|z xs IH]; intros x; simpl.
  - split; [auto|]. intros y [<-|[]]; lia.
  - destruct (IH (Z.min x z)) as [Hin Hlb]; simpl in Hin, Hlb; split.
    + destruct Hin as [E|Hin]; [|auto].
      rewrite <- E; destruct (Z.min_spec x z) as [[_ ->]|[_ ->]]; auto.
    + intros y [<-|[<-|Hy]].
      * specialize (Hlb (Z.min x z) (or_introl eq_refl)); lia.
      * specialize (Hlb (Z.min x z) (or_introl eq_refl)); lia.
      * auto.
Qed.

Lemma max_spec (M : list Z) (p : Z) :
  Py.max M = inr p -> In p M /\ forall x, In x M -> x <= p.
Proof.
  destruct M as [|x xs]; simpl; [discriminate|].
  intros E; injection E as <-; apply fold_max_spec.
Qed.

Lemma min_spec (M : list Z) (p : Z) :
  Py.min M = inr p -> In p M /\ forall x, In x M -> p <= x.
Proof.
  destruct M as [|x xs]; simpl; [discriminate|].
  intros E; injection E as <-; apply fold_min_spec.
Qed.

(** What the two branches compute. *)
Lemma detect_multiplier_positive (T : Z) (M : list Z) (r p : Z) :
  0 < T ->
  detect_multiplier T M = inr (r, p) <->
  Py.max M = inr p /\ p <> 0 /\
  r = (T - Py.sum (filter (fun x => x >? 0) M)) / p.
Proof.
  intros HT; unfold detect_multiplier, Py.floordiv.
  destruct (Z.gtb_spec T 0); [|lia].
  destruct (Py.max M) as [e|b]; simpl.
  - split; [discriminate|intros (E & _); discriminate].
  - destruct (Z.eqb_spec b 0) as [->|Hb]; simpl.
    + split; [discriminate|]. intros (E & E0 & _); congruence.
    + unfold ret; split.
      * intros E; injection E as <- <-; auto.
      * intros (E & _ & ->); injection E as <-; reflexivity.
Qed.

Lemma detect_multiplier_nonpositive (T : Z) (M : list Z) (r p : Z) :
  T <= 0 ->
  detect_multiplier T M = inr (r, p) <->
  Py.min M = inr p /\ p <> 0 /\
  r = (T + Py.sum (filter (fun x => x <? 0) M)) / p.
Proof.
  intros HT; unfold detect_multiplier, Py.floordiv.
  destruct (Z.gtb_spec T 0); [lia|].
  destruct (Py.min M) as [e|b]; simpl.
  - split; [discriminate|intros (E & _); discriminate].
  - destruct (Z.eqb_spec b 0) as [->|Hb]; simpl.
    + split; [discriminate|]. intros (E & E0 & _); congruence.
    + unfold ret; split.
      * intros E; injection E as <- <-; auto.
      * intros (E & _ & ->); injection E as <-; reflexivity.
Qed.

Lemma detect_multiplier_fixed (T : Z) :
  detect_multiplier T modifiers =
  inr (if T >? 0 then ((T - 38) / 16, 16) else ((T + -35) / -15, -15)).
Proof.
  destruct (Z.gtb_spec T 0) as [H|H].
  - apply detect_multiplier_positive; [assumption|].
    repeat split; discriminate.
  - apply detect_multiplier_nonpositive; [assumption|].
    repeat split; discriminate.
Qed.

(** For a target that is not positive the estimate is at least 2 and the
    seed it gives already sums to less than the target. *)
Lemma detect_multiplier_nonpositive_fixed (T : Z) :
  T <= 0 ->
  exists r, detect_multiplier T modifiers = inr (r, -15) /\
            2 <= r /\ r * -15 < T.
Proof.
  intros HT; exists ((T + -35) / -15); split.
  - rewrite detect_multiplier_fixed.
    destruct (Z.gtb_spec T 0); [lia|reflexivity].
  - pose proof (Z.div_mod (T + -35) (-15)).
    pose proof (Z.mod_neg_bound (T + -35) (-15)).
    lia.
Qed.

(** C5, at target 0 with the fixed modifiers.  The positive branch takes
    the sum of the positive modifiers off the target; the other branch adds
    the sum of the negative modifiers where the claim takes it off, so the
    estimate is 2 where the claim gives -3. *)
Theorem detect_multiplier_zero_residual :
  detect_multiplier 0 modifiers = inr (2, -15) /\
  (0 - Py.sum (filter (fun x => x <? 0) modifiers)) / -15 = -3 /\
  (0 + Py.sum (filter (fun x => x <? 0) modifiers)) / -15 = 2.
Proof. repeat split. Qed.

(** C6. When [detect_multiplier T M] returns [(r, p)], [p] is the maximum
    of [M] if [T > 0] and the minimum of [M] if [T <= 0]; at target 0 with
    the fixed modifiers it returns [p = -15]. *)
Theorem detect_multiplier_extremal :
  (forall (T : Z) (M : list Z) (r p : Z),
      detect_multiplier T M = inr (r, p) ->
      In p M /\
      (0 < T -> Py.max M = inr p /\ forall x, In x M -> x <= p) /\
      (T <= 0 -> Py.min M = inr p /\ forall x, In x M -> p <= x)) /\
  (exists r, detect_multiplier 0 modifiers = inr (r, -15)).
Proof.
  split; [|exists 2; reflexivity].
  intros T M r p E.
  destruct (Z.lt_ge_cases 0 T) as [HT|HT].
  - apply detect_multiplier_positive in E as (Hmax & _ & _); [|assumption].
    pose proof (max_spec M p Hmax) as [Hin Hub].
    repeat split; auto; lia.
  - apply detect_multiplier_nonpositive in E as (Hmin & _ & _); [|assumption].
    pose proof (min_spec M p Hmin) as [Hin Hlb].
    repeat split; auto; lia.
Qed.

Lemma detect_multiplier_extremal_witness :
  detect_multiplier 100 modifiers = inr (3, 16) /\
  In 16 modifiers /\
  (0 < 100 -> Py.max modifiers = inr 16 /\
              forall x, In x modifiers -> x <= 16) /\
  (100 <= 0 -> Py.min modifiers = inr 16 /\
               forall x, In x modifiers -> 16 <= x).
Proof.
  split; [reflexivity|].
  exact (proj1 detect_multiplier_extremal 100 modifiers 3 16 eq_refl).
Defined.

(** ** Validation of the required modifiers *)

Lemma validate_cases (R : list Z) :
  (Forall (fun x => In x modifiers) R /\ validate R = inr tt) \/
  (Exists (fun x => ~ In x modifiers) R /\
   validate R = inl (ValueError validation_message)).
Proof.
  induction R as [|x R IH]; cbn [validate].
  - left; split; [constructor|reflexivity].
  - destruct (Py.contains x modifiers) eqn:E; cbn [negb].
    + apply contains_In in E.
      destruct IH as [[HF HV]|[HE HV]]; [left|right]; split; auto.
    + right; split; [|reflexivity].
      apply Exists_cons_hd; rewrite <- contains_In; congruence.
Qed.

Lemma Forall_Exists_exclusive (R : list Z) :
  Forall (fun x => In x modifiers) R ->
  Exists (fun x => ~ In x modifiers) R -> False.
Proof.
  intros HF HE; apply Exists_exists in HE as (x & Hx & Hn).
  rewrite Forall_forall in HF; auto.
Qed.

(** C10. With the fixed modifiers the estimator returns for every target:
    the base modifier is 16 for a positive target and -15 otherwise, never
    0, so the floor division is defined and no run of [main] raises
    [ZeroDivisionError]. *)
Theorem detect_multiplier_total {order : SetOrder} (T : Z) :
  (exists r, detect_multiplier T modifiers
             = inr (r, if T >? 0 then 16 else -15)) /\
  (forall (rounds : nat) (must_include : list Z) (msg : String.string),
      main rounds T must_include <> inl (ZeroDivisionError msg)).
Proof.
  split.
  - rewrite detect_multiplier_fixed; destruct (T >? 0); eauto.
  - intros rounds R msg; unfold main, multiplier_calibration.
    rewrite detect_multiplier_fixed.
    destruct (validate_cases R) as [[_ ->]|[_ ->]]; simpl; [|discriminate].
    destruct (T - Py.sum R >? 0); simpl; discriminate.
Qed.

(** ** The seed generator *)

(** C7. With [r <= 1] the seed is the set of the one-element tuples [(m)],
    [m] in [M]; otherwise it is the set whose only member is [p] repeated
    [r] times. *)
Theorem generate_multiplier_first_moves_policy {order : SetOrder}
    (r p : Z) (M : list Z) :
  (r <= 1 ->
   NoDup (generate_multiplier_first_moves r p M) /\
   forall t, In t (generate_multiplier_first_moves r p M) <->
             exists m, In m M /\ t = [m]) /\
  (1 < r ->
   generate_multiplier_first_moves r p M = [repeat p (Z.to_nat r)] /\
   length (repeat p (Z.to_nat r)) = Z.to_nat r).
Proof.
  split; intros Hr.
  - split; [apply seed_NoDup|].
    intros t; apply seed_small, Hr.
  - split; [apply seed_large, Hr|apply repeat_length].
Qed.

Lemma generate_multiplier_first_moves_policy_witness :
  1 < 3 /\
  generate_multiplier_first_moves (order := listed_order) 3 16 modifiers
  = [[16; 16; 16]].
Proof.
  split; [lia|].
  apply (proj2 (generate_multiplier_first_moves_policy
                  (order := listed_order) 3 16 modifiers)).
  lia.
Defined.

(** ** The driver *)

Section Driver.

Context {order : SetOrder}.

(** The seed of the search for an adjusted target. *)
Lemma multiplier_calibration_fixed (t : Z) :
  multiplier_calibration t modifiers =
  inr (if t >? 0
       then generate_multiplier_first_moves ((t - 38) / 16) 16 modifiers
       else generate_multiplier_first_moves ((t + -35) / -15) (-15)
              modifiers).
Proof.
  unfold multiplier_calibration; rewrite detect_multiplier_fixed.
  destruct (t >? 0); reflexivity.
Qed.

Lemma main_valid (rounds : nat) (T : Z) (R : list Z) :
  validate R = inr tt ->
  exists combinations,
    multiplier_calibration (T - Py.sum R) modifiers = inr combinations /\
    main rounds T R = inr (search rounds (T - Py.sum R) R combinations).
Proof.
  intros HV; unfold main; rewrite HV; cbn [bind].
  rewrite multiplier_calibration_fixed; cbn [bind]; eauto.
Qed.

Lemma main_invalid (rounds : nat) (T : Z) (R : list Z) (e : exn) :
  validate R = inl e -> main rounds T R = inl e.
Proof. intros HV; unfold main; rewrite HV; reflexivity. Qed.

(** One pass over a candidate set. *)
Lemma scan_found (t : Z) (cs seen : list tuple) (i : tuple) :
  scan t cs = (seen, Some i) ->
  exists pre, seen = pre ++ [i] /\
              Forall (fun c => Py.sum c <> t) pre /\
              Py.sum i = t /\ incl seen cs.
Proof.
  revert seen; induction cs as [|c cs IH]; intros seen; cbn [scan].
  - discriminate.
  - destruct (Z.eqb_spec (Py.sum c) t) as [E|E].
    + intros H; injection H as <- <-.
      exists []; repeat split; auto.
      intros x [<-|[]]; left; reflexivity.
    + destruct (scan t cs) as [seen' found]; intros H; injection H as <- ->.
      destruct (IH seen' eq_refl) as (pre & -> & Hpre & Hi & Hincl).
      exists (c :: pre); repeat split; auto.
      intros x [<-|Hx]; [left; reflexivity|right; auto].
Qed.

Lemma scan_missed (t : Z) (cs seen : list tuple) :
  scan t cs = (seen, None) ->
  seen = cs /\ Forall (fun c => Py.sum c <> t) cs.
Proof.
  revert seen; induction cs as [|c cs IH]; intros seen; cbn [scan].
  - intros H; injection H as <-; auto.
  - destruct (Z.eqb_spec (Py.sum c) t) as [E|E]; [discriminate|].
    destruct (scan t cs) as [seen' found]; intros H; injection H as <- ->.
    destruct (IH seen' eq_refl) as [-> HF]; auto.
Qed.

Lemma scan_complete (t : Z) (cs : list tuple) (c : tuple) :
  In c cs -> Py.sum c = t -> exists seen i, scan t cs = (seen, Some i).
Proof.
  intros Hc Ht.
  destruct (scan t cs) as [seen [i|]] eqn:E; [eauto|].
  apply scan_missed in E as [_ HF].
  rewrite Forall_forall in HF; exfalso; apply (HF c); assumption.
Qed.

(** Every scanned candidate belongs to the candidate set of some round. *)
Lemma search_scanned (rounds : nat) (t : Z) (R : list Z)
    (cs : list tuple) (c : tuple) :
  In c (scanned (search rounds t R cs)) -> exists k, In c (round k cs).
Proof.
  revert cs; induction rounds as [|n IH]; intros cs; cbn [search].
  - intros [].
  - destruct (scan t cs) as [seen [i|]] eqn:E; cbn [scanned].
    + apply scan_found in E as (_ & _ & _ & _ & Hincl).
      intros Hc; exists O; apply Hincl, Hc.
    + apply scan_missed in E as [-> _].
      intros Hc; apply in_app_or in Hc as [Hc|Hc].
      * exists O; assumption.
      * destruct (IH _ Hc) as [k Hk]; exists (S k); assumption.
Qed.

(** A returned answer is the required modifiers followed by the first
    scanned candidate that sums to the adjusted target. *)
Lemma search_answer (rounds : nat) (t : Z) (R : list Z)
    (cs : list tuple) (ans : list Z) :
  answer (search rounds t R cs) = Some ans ->
  exists pre i,
    scanned (search rounds t R cs) = pre ++ [i] /\
    Forall (fun c => Py.sum c <> t) pre /\
    Py.sum i = t /\ ans = R ++ i.
Proof.
  revert cs; induction rounds as [|n IH]; intros cs; cbn [search].
  - discriminate.
  - destruct (scan t cs) as [seen [i|]] eqn:E; cbn [scanned answer].
    + apply scan_found in E as (pre & -> & Hpre & Hi & _).
      intros H; injection H as <-; exists pre, i; auto.
    + apply scan_missed in E as [-> Hcs].
      intros H; destruct (IH _ H) as (pre & i & -> & Hpre & Hi & ->).
      exists (cs ++ pre), i; rewrite app_assoc; repeat split; auto.
      apply Forall_app; auto.
Qed.

(** The loop returns as soon as some round holds a matching candidate. *)
Lemma search_returns (k : nat) (t : Z) (R : list Z)
    (cs : list tuple) (c : tuple) :
  In c (round k cs) -> Py.sum c = t ->
  exists ans, answer (search (S k) t R cs) = Some ans.
Proof.
  revert cs; induction k as [|k IH]; intros cs Hc Ht; cbn [round] in Hc.
  - cbn [search].
    destruct (scan_complete t cs c Hc Ht) as (seen & i & ->).
    cbn [answer]; eauto.
  - specialize (IH _ Hc Ht).
    change (search (S (S k)) t R cs) with
      (match scan t cs with
       | (seen, Some i) => {| scanned := seen; answer := Some (R ++ i) |}
       | (seen, None) =>
           let r := search (S k) t R (expand_modifiers cs modifiers) in
           {| scanned := seen ++ scanned r; answer := answer r |}
       end).
    destruct (scan t cs) as [seen [i|]]; cbn [answer]; eauto.
Qed.

End Driver.

(** *** What the rounds hold *)

Section Rounds.

Context {order : SetOrder}.

(** Expanding appends: a member of the next round has every modifier of
    the member it extends, as often. *)
Lemma expand_modifiers_count (a : list tuple) (M : list Z)
    (c : tuple) (p : Z) :
  In c (expand_modifiers a M) ->
  exists x, In x a /\ (count_occ Z.eq_dec x p <= count_occ Z.eq_dec c p)%nat.
Proof.
  intros Hc; apply expand_modifiers_In in Hc as (x & y & Hx & _ & ->).
  exists x; split; [assumption|].
  pose proof (sorted_Permutation (x ++ [y])) as HP.
  rewrite (Permutation_count_occ Z.eq_dec) in HP.
  rewrite HP, count_occ_app; lia.
Qed.

Lemma round_count (k n : nat) (cs : list tuple) (p : Z) :
  (forall x, In x cs -> (n <= count_occ Z.eq_dec x p)%nat) ->
  forall c, In c (round k cs) -> (n <= count_occ Z.eq_dec c p)%nat.
Proof.
  revert cs; induction k as [|k IH]; intros cs Hcs c Hc; cbn [round] in Hc.
  - auto.
  - apply (IH (expand_modifiers cs modifiers)); [|assumption].
    intros x Hx; apply expand_modifiers_count with (p := p) in Hx.
    destruct Hx as (x0 & Hx0 & Hle); specialize (Hcs x0 Hx0); lia.
Qed.

(** Every extension of a member by a list of modifiers shows up, in
    ascending order, after as many expansions as the list is long. *)
Lemma round_reach (l : list Z) (cs : list tuple) (x : tuple) :
  In x cs -> Forall (fun y => In y modifiers) l ->
  exists c, In c (round (length l) cs) /\ Permutation c (x ++ l).
Proof.
  revert cs x; induction l as [|y l IH]; intros cs x Hx Hl;
    cbn [length round].
  - exists x; rewrite app_nil_r; auto.
  - inversion Hl as [|? ? Hy Hl']; subst.
    destruct (IH (expand_modifiers cs modifiers) (Py.sorted (x ++ [y])))
      as (c & Hc & HP); [|assumption|].
    + apply expand_modifiers_In; eauto.
    + exists c; split; [assumption|].
      rewrite HP, sorted_Permutation, <- app_assoc; reflexivity.
Qed.

(** Every integer is the sum of a non-empty list of modifiers: some 2s
    and some -5s. *)
Lemma modifiers_cover (n : Z) :
  exists y l, In y modifiers /\ Forall (fun z => In z modifiers) l /\
              Py.sum (y :: l) = n.
Proof.
  set (a := if 0 <=? n then 3 * n + 4 else 4 - 2 * n).
  set (b := if 0 <=? n then n + 2 else 2 - n).
  exists 2, (repeat 2 (Z.to_nat a) ++ repeat (-5) (Z.to_nat b)).
  split; [unfold modifiers; simpl; tauto|]; split.
  - apply Forall_app; split; apply Forall_forall; intros z Hz;
      apply repeat_spec in Hz; subst; unfold modifiers; simpl; tauto.
  - rewrite sum_cons, sum_app, !sum_repeat.
    subst a b; destruct (Z.leb_spec 0 n); lia.
Qed.

Lemma round_S (k : nat) (cs : list tuple) :
  round (S k) cs = expand_modifiers (round k cs) modifiers.
Proof.
  revert cs; induction k as [|k IH]; intros cs; [reflexivity|].
  change (round (S (S k)) cs)
    with (round (S k) (expand_modifiers cs modifiers)).
  rewrite IH; reflexivity.
Qed.

Lemma repeat_Sorted (p : Z) (n : nat) : Sorted Z.le (repeat p n).
Proof.
  induction n as [|n IH]; cbn [repeat]; constructor; [assumption|].
  destruct n; cbn [repeat]; constructor; lia.
Qed.

(** Every candidate of every round is in ascending order. *)
Lemma round_Sorted (k : nat) (r p : Z) (c : tuple) :
  In c (round k (generate_multiplier_first_moves r p modifiers)) ->
  Sorted Z.le c.
Proof.
  destruct k as [|k].
  - cbn [round]; destruct (Z.le_gt_cases r 1) as [Hr|Hr].
    + rewrite (seed_small r p modifiers c Hr); intros (m & _ & ->).
      repeat constructor.
    + rewrite (seed_large r p modifiers Hr); intros [<-|[]].
      apply repeat_Sorted.
  - rewrite round_S; apply expand_modifiers_Sorted.
Qed.

Lemma round_NoDup (k : nat) (r p : Z) :
  NoDup (round k (generate_multiplier_first_moves r p modifiers)).
Proof.
  destruct k as [|k].
  - apply seed_NoDup.
  - rewrite round_S; apply expand_modifiers_NoDup.
Qed.

End Rounds.

(** The candidate sets of [main] never lose members from one round to the
    next. *)
Lemma rounds_grow {order : SetOrder} (k : nat) (r p : Z) :
  (length (round k (generate_multiplier_first_moves r p modifiers))
   <= length (round (S k) (generate_multiplier_first_moves r p modifiers)))%nat.
Proof.
  rewrite round_S.
  apply (expand_modifiers_card _ modifiers 16).
  - unfold modifiers; simpl; tauto.
  - apply round_NoDup.
  - apply Forall_forall; intros c Hc; apply (round_Sorted k r p c Hc).
Qed.

(** C1. When [main T R] returns, with every member of [R] a fixed
    modifier, the answer is [R] followed by the matched combination: the
    last candidate scanned, and the first one whose sum is the adjusted
    target [T - sum R].  The sum of the answer is [T]. *)
Theorem main_answer {order : SetOrder}
    (rounds : nat) (T : Z) (R : list Z) (tr : run) (ans : list Z) :
  Forall (fun x => In x modifiers) R ->
  main rounds T R = inr tr ->
  answer tr = Some ans ->
  exists pre i,
    scanned tr = pre ++ [i] /\
    Forall (fun c => Py.sum c <> T - Py.sum R) pre /\
    Py.sum i = T - Py.sum R /\
    ans = R ++ i /\
    Py.sum ans = T.
Proof.
  intros HR Hmain Hans.
  destruct (validate_cases R) as [[_ HV]|[HE _]];
    [|destruct (Forall_Exists_exclusive R HR HE)].
  destruct (main_valid rounds T R HV) as (cs & _ & E).
  rewrite E in Hmain; injection Hmain as <-.
  destruct (search_answer _ _ _ _ _ Hans) as (pre & i & Hs & Hpre & Hi & ->).
  exists pre, i; repeat split; auto.
  rewrite sum_app; lia.
Qed.

Lemma main_answer_witness :
  Forall (fun x => In x modifiers) [7] /\
  main (order := listed_order) 1 9 [7]
  = inr {| scanned := [[-5]; [-6]; [-9]; [-15]; [2]];
           answer := Some [7; 2] |} /\
  exists pre i,
    [[-5]; [-6]; [-9]; [-15]; [2]] = pre ++ [i] /\
    Forall (fun c => Py.sum c <> 9 - Py.sum [7]) pre /\
    Py.sum i = 9 - Py.sum [7] /\
    [7; 2] = [7] ++ i /\
    Py.sum [7; 2] = 9.
Proof.
  assert (H : Forall (fun x => In x modifiers) [7]).
  { repeat constructor; unfold modifiers; simpl; tauto. }
  split; [exact H|].
  split; [reflexivity|].
  exact (main_answer (order := listed_order) 1 9 [7] _ [7; 2]
           H eq_refl eq_refl).
Defined.

(** C2. [main T R] raises the validation error exactly when some member of
    [R] is not a fixed modifier.  The error is the outcome of the check
    that opens [main]: it is raised whatever the target, and with no round
    of the search run. *)
Theorem main_validation {order : SetOrder} (T : Z) (R : list Z) :
  ((exists rounds, main rounds T R = inl (ValueError validation_message)) <->
   Exists (fun x => ~ In x modifiers) R) /\
  (Exists (fun x => ~ In x modifiers) R ->
   validate R = inl (ValueError validation_message) /\
   forall rounds T', main rounds T' R = inl (ValueError validation_message)) /\
  (forall rounds e, main rounds T R = inl e ->
                    e = ValueError validation_message /\
                    validate R = inl e).
Proof.
  destruct (validate_cases R) as [[HF HV]|[HE HV]].
  - assert (Hok : forall rounds e, main rounds T R <> inl e).
    { intros rounds e; destruct (main_valid rounds T R HV) as (cs & _ & ->).
      discriminate. }
    repeat split.
    + intros [rounds E]; destruct (Hok _ _ E).
    + intros HE; destruct (Forall_Exists_exclusive R HF HE).
    + destruct (Forall_Exists_exclusive R HF H).
    + destruct (Forall_Exists_exclusive R HF H).
    + destruct (Hok _ _ H).
    + destruct (Hok _ _ H).
  - assert (Hko : forall rounds T',
               main rounds T' R = inl (ValueError validation_message)).
    { intros; apply main_invalid, HV. }
    repeat split; auto.
    + exists O; apply Hko.
    + rewrite Hko in H; congruence.
    + rewrite Hko in H; congruence.
Qed.

Lemma main_validation_witness :
  Exists (fun x => ~ In x modifiers) [3] /\
  forall rounds T',
    main (order := listed_order) rounds T' [3]
    = inl (ValueError validation_message).
Proof.
  assert (H : Exists (fun x => ~ In x modifiers) [3]).
  { apply Exists_cons_hd; unfold modifiers; simpl; intuition discriminate. }
  split; [exact H|].
  exact (proj2 (proj1 (proj2 (main_validation (order := listed_order) 10 [3]))
                  H)).
Defined.

(** C9. When the estimate [r] for the adjusted target exceeds 1, every
    candidate that a run of [main] scans, in whatever round, holds at least
    [r] copies of the base modifier [p]. *)
Theorem main_scans_seeded {order : SetOrder}
    (rounds : nat) (T : Z) (R : list Z) (tr : run) (r p : Z) :
  main rounds T R = inr tr ->
  detect_multiplier (T - Py.sum R) modifiers = inr (r, p) ->
  1 < r ->
  Forall (fun c => (Z.to_nat r <= count_occ Z.eq_dec c p)%nat) (scanned tr).
Proof.
  intros Hmain Hdet Hr.
  destruct (validate_cases R) as [[_ HV]|[_ HV]];
    [|rewrite (main_invalid rounds T R _ HV) in Hmain; discriminate].
  destruct (main_valid rounds T R HV) as (cs & Hcs & E).
  rewrite E in Hmain; injection Hmain as <-.
  unfold multiplier_calibration in Hcs; rewrite Hdet in Hcs.
  cbn [bind] in Hcs; injection Hcs as <-.
  pose proof (seed_large r p modifiers Hr) as Hseed'.
  apply Forall_forall; intros c Hc.
  apply search_scanned in Hc as [k Hk].
  apply (round_count k (Z.to_nat r) _ p) in Hk; [assumption|].
  rewrite Hseed'; intros x [<-|[]].
  rewrite count_occ_repeat_eq; auto.
Qed.

Lemma main_scans_seeded_witness :
  main (order := listed_order) 2 120 [7]
  = inr {| scanned := [[16; 16; 16; 16]; [-5; 16; 16; 16; 16];
                       [-6; 16; 16; 16; 16]; [-9; 16; 16; 16; 16];
                       [-15; 16; 16; 16; 16]; [2; 16; 16; 16; 16];
                       [7; 16; 16; 16; 16]; [13; 16; 16; 16; 16];
                       [16; 16; 16; 16; 16]];
           answer := None |} /\
  detect_multiplier (120 - Py.sum [7]) modifiers = inr (4, 16) /\
  1 < 4 /\
  Forall (fun c => (Z.to_nat 4%Z <= count_occ Z.eq_dec c 16%Z)%nat)
         [[16; 16; 16; 16]; [-5; 16; 16; 16; 16];
          [-6; 16; 16; 16; 16]; [-9; 16; 16; 16; 16];
          [-15; 16; 16; 16; 16]; [2; 16; 16; 16; 16];
          [7; 16; 16; 16; 16]; [13; 16; 16; 16; 16];
          [16; 16; 16; 16; 16]].
Proof.
  split; [reflexivity|].
  split; [reflexivity|].
  split; [lia|].
  exact (main_scans_seeded (order := listed_order) 2 120 [7] _ 4 16
           eq_refl eq_refl eq_refl).
Defined.

(** [main] returns for every target and every list of fixed modifiers. *)
Lemma main_returns {order : SetOrder} (T : Z) (R : list Z) :
  Forall (fun x => In x modifiers) R ->
  exists rounds tr ans,
    main rounds T R = inr tr /\ answer tr = Some ans /\ Py.sum ans = T.
Proof.
  intros HR.
  destruct (validate_cases R) as [[_ HV]|[HE _]];
    [|destruct (Forall_Exists_exclusive R HR HE)].
  set (t := T - Py.sum R).
  assert (Hround : exists cs k c,
             multiplier_calibration t modifiers = inr cs /\
             In c (round k cs) /\ Py.sum c = t).
  { rewrite multiplier_calibration_fixed.
    set (r := if t >? 0 then (t - 38) / 16 else (t + -35) / -15).
    set (p := if t >? 0 then 16 else -15).
    exists (generate_multiplier_first_moves r p modifiers).
    assert (Hcs : (if t >? 0
                   then generate_multiplier_first_moves
                          ((t - 38) / 16) 16 modifiers
                   else generate_multiplier_first_moves
                          ((t + -35) / -15) (-15) modifiers)
                  = generate_multiplier_first_moves r p modifiers)
      by (subst r p; destruct (t >? 0); reflexivity).
    rewrite Hcs.
    destruct (Z.le_gt_cases r 1) as [Hr|Hr].
    - pose proof (fun t => seed_small r p modifiers t Hr) as Hin.
      destruct (modifiers_cover t) as (y & l & Hy & Hl & Hsum).
      destruct (round_reach l (generate_multiplier_first_moves r p modifiers)
                  [y]) as (c & Hc & HP); [apply Hin; eauto|assumption|].
      exists (length l), c; repeat split; auto.
      rewrite (sum_Permutation _ _ HP); exact Hsum.
    - pose proof (seed_large r p modifiers Hr) as Hseed.
      set (x := repeat p (Z.to_nat r)) in *.
      destruct (modifiers_cover (t - Py.sum x)) as (y & l & Hy & Hl & Hsum).
      destruct (round_reach (y :: l)
                  (generate_multiplier_first_moves r p modifiers) x)
        as (c & Hc & HP).
      + rewrite Hseed; left; reflexivity.
      + constructor; assumption.
      + exists (length (y :: l)), c; repeat split; auto.
        rewrite (sum_Permutation _ _ HP), sum_app, Hsum; lia. }
  destruct Hround as (cs & k & c & Hcs & Hc & Hsum).
  destruct (main_valid (S k) T R HV) as (cs' & Hcs' & E).
  fold t in Hcs', E; rewrite Hcs in Hcs'; injection Hcs' as <-.
  destruct (search_returns k t R cs c Hc Hsum) as [ans Hans].
  exists (S k), (search (S k) t R cs), ans; repeat split; auto.
  destruct (search_answer _ _ _ _ _ Hans) as (pre & i & _ & _ & Hi & ->).
  rewrite sum_app; subst t; lia.
Qed.

(** C3. For every target that is the sum of some list of fixed modifiers,
    [main] with no required modifier returns within a bounded number of
    rounds, and the answer sums to the target; so it does for target 0. *)
Theorem main_terminates {order : SetOrder} :
  (forall T : Z,
      (exists l, Forall (fun x => In x modifiers) l /\ Py.sum l = T) ->
      exists rounds tr ans,
        main rounds T [] = inr tr /\ answer tr = Some ans /\
        Py.sum ans = T) /\
  (exists rounds tr ans,
      main rounds 0 [] = inr tr /\ answer tr = Some ans /\ Py.sum ans = 0).
Proof.
  split; [intros T _|]; apply main_returns; constructor.
Qed.

Lemma main_terminates_witness :
  (exists l, Forall (fun x => In x modifiers) l /\ Py.sum l = 9) /\
  exists rounds tr ans,
    main (order := listed_order) rounds 9 [] = inr tr /\
    answer tr = Some ans /\ Py.sum ans = 9.
Proof.
  assert (H : exists l, Forall (fun x => In x modifiers) l /\ Py.sum l = 9).
  { exists [2; 7]; split; [|reflexivity].
    repeat constructor; unfold modifiers; simpl; tauto. }
  split; [exact H|].
  exact (proj1 (main_terminates (order := listed_order)) 9 H).
Defined.

(** ** The module's own call and two small targets

    Under [listed_order]; in each case only one candidate of the round
    that returns has the right sum. *)

Example main_70 :
  match main (order := listed_order) 5 70 [-5; -9; 2] with
  | inr r => answer r
  | inl _ => None
  end = Some [-5; -9; 2; 2; 16; 16; 16; 16; 16].
Proof. vm_compute; reflexivity. Qed.

Example main_2 :
  match main (order := listed_order) 1 2 [] with
  | inr r => answer r
  | inl _ => None
  end = Some [2].
Proof. vm_compute; reflexivity. Qed.

Example main_minus_5 :
  match main (order := listed_order) 4 (-5) [] with
  | inr r => answer r
  | inl _ => None
  end = Some [-15; -15; 2; 7; 16].
Proof. vm_compute; reflexivity. Qed.

(** * Further properties of the module *)

(** ** Errors of the estimator and of the calibration *)

Lemma detect_multiplier_raises (T : Z) (M : list Z) (e : exn) :
  detect_multiplier T M = inl e ->
  (M = [] /\ exists msg, e = ValueError msg) \/
  (exists p msg, (if T >? 0 then Py.max M else Py.min M) = inr p /\
                 p = 0 /\ e = ZeroDivisionError msg).
Proof.
  unfold detect_multiplier, Py.floordiv.
  destruct (T >? 0).
  - destruct M as [|x xs]; cbn [Py.max bind raise ret].
    + intros E; injection E as <-; left; eauto.
    + destruct (Z.eqb_spec (fold_left Z.max xs x) 0) as [E0|E0];
        cbn [bind raise ret]; [|discriminate].
      intros E; injection E as <-; right; eauto.
  - destruct M as [|x xs]; cbn [Py.min bind raise ret].
    + intros E; injection E as <-; left; eauto.
    + destruct (Z.eqb_spec (fold_left Z.min xs x) 0) as [E0|E0];
        cbn [bind raise ret]; [|discriminate].
      intros E; injection E as <-; right; eauto.
Qed.

(** X1. The estimator raises [ValueError] exactly on an empty modifier
    list, and [ZeroDivisionError] exactly when the list is not empty and
    its maximum (positive target) or minimum (other targets) is 0; the
    calibration raises the same exception, and otherwise returns the seed
    of the estimate. *)
Theorem multiplier_calibration_errors {order : SetOrder} (T : Z) (M : list Z) :
  ((exists msg, detect_multiplier T M = inl (ValueError msg)) <-> M = []) /\
  ((exists msg, detect_multiplier T M = inl (ZeroDivisionError msg)) <->
   (if T >? 0 then Py.max M else Py.min M) = inr 0) /\
  (forall e, multiplier_calibration T M = inl e <->
             detect_multiplier T M = inl e) /\
  (forall r p, detect_multiplier T M = inr (r, p) ->
               multiplier_calibration T M
               = inr (generate_multiplier_first_moves r p M)).
Proof.
  split; [|split; [|split]].
  - split.
    + intros [msg E]; apply detect_multiplier_raises in E.
      destruct E as [[HM _]|(p & msg' & _ & _ & E)];
        [assumption|discriminate].
    + intros ->; unfold detect_multiplier; destruct (T >? 0); cbn; eauto.
  - split.
    + intros [msg E]; apply detect_multiplier_raises in E.
      destruct E as [[_ [msg' E]]|(p & msg' & Hp & -> & _)];
        [discriminate|assumption].
    + intros E; unfold detect_multiplier, Py.floordiv.
      destruct (T >? 0); rewrite E; cbn; eauto.
  - intros e; unfold multiplier_calibration.
    destruct (detect_multiplier T M) as [e'|[r p]]; cbn.
    + split; intros E; injection E as ->; reflexivity.
    + split; discriminate.
  - unfold multiplier_calibration; intros r p ->; reflexivity.
Qed.

Lemma multiplier_calibration_errors_witness :
  Py.max [-3; 0] = inr 0 /\
  multiplier_calibration (order := listed_order) 5 [-3; 0]
  = inl (ZeroDivisionError "integer division by zero"%string).
Proof.
  split; [reflexivity|].
  apply (proj2 (proj1 (proj2 (proj2 (multiplier_calibration_errors
                                        (order := listed_order) 5 [-3; 0])))
                  _)).
  reflexivity.
Defined.

(** ** More on the expander *)

Lemma set_of_nil {order : SetOrder} : set_of [] = [].
Proof.
  destruct (set_of []) as [|t l] eqn:E; [reflexivity|].
  exfalso; apply (proj1 (set_of_In [] t)); rewrite E; left; reflexivity.
Qed.

(** X2. The expansion is empty exactly when the candidate set or the
    modifier list is empty, and it never has more members than there are
    pairs of a candidate and a modifier. *)
Theorem expand_modifiers_size {order : SetOrder}
    (a : list tuple) (M : list Z) :
  (expand_modifiers a M = [] <-> a = [] \/ M = []) /\
  (length (expand_modifiers a M) <= length a * length M)%nat.
Proof.
  split.
  - split.
    + intros E; destruct a as [|x a]; [auto|].
      destruct M as [|y M]; [auto|].
      exfalso.
      assert (H : In (Py.sorted (x ++ [y])) (expand_modifiers (x :: a) (y :: M))).
      { apply expand_modifiers_In; exists x, y; simpl; auto. }
      rewrite E in H; destruct H.
    + intros [-> | ->]; unfold expand_modifiers.
      * apply set_of_nil.
      * replace (flat_map (fun x => map (fun y => Py.sorted (x ++ [y])) []) a)
          with (@nil (list Z)); [apply set_of_nil|].
        induction a as [|x a IH]; [reflexivity|exact IH].
  - unfold expand_modifiers; rewrite set_of_length.
    transitivity
      (length (flat_map
                 (fun x => map (fun y => Py.sorted (x ++ [y])) M) a)).
    + apply NoDup_incl_length; [apply NoDup_nodup|].
      intros t Ht; apply nodup_In in Ht; exact Ht.
    + induction a as [|x a IH]; cbn [flat_map length]; [lia|].
      rewrite length_app, length_map; lia.
Qed.

(** X3. The expansion reads tuples as multisets and sets by their
    members: if every tuple of [a] has a rearrangement in [a'] and every
    modifier of [M] is in [M'], every member of the expansion of [a] by [M]
    is a member of the expansion of [a'] by [M']. *)
Theorem expand_modifiers_monotone {order : SetOrder}
    (a a' : list tuple) (M M' : list Z) :
  (forall x, In x a -> exists x', In x' a' /\ Permutation x x') ->
  incl M M' ->
  incl (expand_modifiers a M) (expand_modifiers a' M').
Proof.
  intros Ha HM t Ht.
  apply expand_modifiers_In in Ht as (x & y & Hx & Hy & ->).
  destruct (Ha x Hx) as (x' & Hx' & HP).
  apply expand_modifiers_In; exists x', y; repeat split; auto.
  apply sorted_respects_Permutation, Permutation_app_tail, HP.
Qed.

Lemma expand_modifiers_monotone_witness :
  (forall x, In x [[7; 2]] -> exists x', In x' [[2; 7]] /\ Permutation x x') /\
  incl [16] [16; 16] /\
  incl (expand_modifiers (order := listed_order) [[7; 2]] [16])
       (expand_modifiers (order := listed_order) [[2; 7]] [16; 16]).
Proof.
  assert (H1 : forall x, In x [[7; 2]] ->
                         exists x', In x' [[2; 7]] /\ Permutation x x').
  { intros x [<-|[]]; exists [2; 7]; split; [left; reflexivity|].
    apply perm_swap. }
  assert (H2 : incl [16] [16; 16]).
  { intros y [<-|[]]; left; reflexivity. }
  split; [exact H1|]; split; [exact H2|].
  exact (expand_modifiers_monotone (order := listed_order)
           [[7; 2]] [[2; 7]] [16] [16; 16] H1 H2).
Defined.

(** ** The search space, round by round *)

Lemma round_origin {order : SetOrder} (k : nat) (cs : list tuple) (c : tuple) :
  In c (round k cs) ->
  exists x l, In x cs /\ length l = k /\
              Forall (fun y => In y modifiers) l /\ Permutation c (x ++ l).
Proof.
  revert cs; induction k as [|k IH]; intros cs Hc; cbn [round] in Hc.
  - exists c, []; rewrite app_nil_r; repeat split; auto.
  - destruct (IH _ Hc) as (x' & l & Hx' & Hl & HF & HP).
    apply expand_modifiers_In in Hx' as (x & y & Hx & Hy & ->).
    exists x, (y :: l); repeat split; cbn [length]; auto.
    rewrite HP, sorted_Permutation, <- app_assoc; reflexivity.
Qed.

Lemma seed_members_length {order : SetOrder} (r p : Z) (x : tuple) :
  In x (generate_multiplier_first_moves r p modifiers) ->
  length x = seed_length r.
Proof.
  unfold seed_length; destruct (Z.leb_spec r 1) as [Hr|Hr].
  - rewrite (seed_small r p modifiers x Hr); intros (m & _ & ->); reflexivity.
  - rewrite (seed_large r p modifiers Hr); intros [<-|[]].
    apply repeat_length.
Qed.

Lemma seed_members_Sorted {order : SetOrder} (r p : Z) (x : tuple) :
  In x (generate_multiplier_first_moves r p modifiers) -> Sorted Z.le x.
Proof. apply (round_Sorted 0 r p x). Qed.

(** X4. After [k] expansions of the seed of an estimate [(r, p)] the
    candidate set is duplicate-free and holds exactly the ascending
    rearrangements of a seed tuple followed by [k] fixed modifiers; so all
    its tuples have the length of the seed tuples plus [k]. *)
Theorem round_members {order : SetOrder} (k : nat) (r p : Z) :
  NoDup (round k (generate_multiplier_first_moves r p modifiers)) /\
  (forall c,
      In c (round k (generate_multiplier_first_moves r p modifiers)) <->
      exists x l,
        In x (generate_multiplier_first_moves r p modifiers) /\
        length l = k /\ Forall (fun y => In y modifiers) l /\
        Sorted Z.le c /\ Permutation c (x ++ l)) /\
  Forall (fun c => length c = (seed_length r + k)%nat)
         (round k (generate_multiplier_first_moves r p modifiers)).
Proof.
  split; [apply round_NoDup|]; split.
  - intros c; split.
    + intros Hc; destruct (round_origin k _ c Hc) as (x & l & Hx & Hl & HF & HP).
      exists x, l; repeat split; auto.
      apply (round_Sorted k r p c Hc).
    + intros (x & l & Hx & Hl & HF & Hs & HP).
      destruct (round_reach l _ x Hx HF) as (c' & Hc' & HP').
      rewrite Hl in Hc'.
      replace c with c'; [assumption|].
      apply Sorted_Permutation_eq; auto.
      * apply (round_Sorted k r p c' Hc').
      * rewrite HP', HP; reflexivity.
  - apply Forall_forall; intros c Hc.
    destruct (round_origin k _ c Hc) as (x & l & Hx & Hl & _ & HP).
    rewrite (Permutation_length HP), length_app, Hl.
    rewrite (seed_members_length r p x Hx); reflexivity.
Qed.

(** ** More on the driver *)

Section DriverMore.

Context {order : SetOrder}.

Lemma search_S (n : nat) (t : Z) (R : list Z) (cs : list tuple) :
  search (S n) t R cs =
  match scan t cs with
  | (seen, Some i) => {| scanned := seen; answer := Some (R ++ i) |}
  | (seen, None) =>
      let r := search n t R (expand_modifiers cs modifiers) in
      {| scanned := seen ++ scanned r; answer := answer r |}
  end.
Proof. reflexivity. Qed.

(** Once the loop has returned, further rounds are never run. *)
Lemma search_stable (n m : nat) (t : Z) (R : list Z) (cs : list tuple)
    (ans : list Z) :
  answer (search n t R cs) = Some ans -> (n <= m)%nat ->
  search m t R cs = search n t R cs.
Proof.
  revert m cs; induction n as [|n IH]; intros m cs Hans Hle.
  - discriminate.
  - destruct m as [|m]; [lia|].
    rewrite !search_S in *.
    destruct (scan t cs) as [seen [i|]]; [reflexivity|].
    cbn [answer] in Hans; cbn zeta.
    rewrite (IH m _ Hans); [reflexivity|lia].
Qed.

(** The loop returns in the first round that holds a match. *)
Lemma search_first_round (n : nat) (t : Z) (R : list Z) (cs : list tuple)
    (ans : list Z) :
  answer (search n t R cs) = Some ans ->
  exists k i, (k < n)%nat /\ ans = R ++ i /\ In i (round k cs) /\
              Py.sum i = t /\
              forall j c, (j < k)%nat -> In c (round j cs) -> Py.sum c <> t.
Proof.
  revert cs; induction n as [|n IH]; intros cs Hans.
  - discriminate.
  - rewrite search_S in Hans.
    destruct (scan t cs) as [seen [i|]] eqn:E; cbn [answer] in Hans.
    + injection Hans as <-.
      apply scan_found in E as (pre & -> & _ & Hi & Hincl).
      exists O, i; repeat split; auto; [lia| |intros; lia].
      apply Hincl, in_or_app; right; left; reflexivity.
    + apply scan_missed in E as [_ Hcs].
      destruct (IH _ Hans) as (k & i & Hk & -> & Hi & Hsum & Hmin).
      exists (S k), i; repeat split; auto; [lia|].
      intros [|j] c Hj Hc.
      * rewrite Forall_forall in Hcs; apply Hcs, Hc.
      * apply (Hmin j c); [lia|exact Hc].
Qed.

(** The members of a round do not depend on the enumeration order. *)
Lemma round_order_free (o1 o2 : SetOrder) (k : nat) (cs1 cs2 : list tuple) :
  (forall x, In x cs1 <-> In x cs2) ->
  forall c, In c (@round o1 k cs1) <-> In c (@round o2 k cs2).
Proof.
  revert cs1 cs2; induction k as [|k IH]; intros cs1 cs2 H c; cbn [round].
  - apply H.
  - apply IH; intros t.
    rewrite !expand_modifiers_In.
    split; intros (x & y & Hx & Hy & ->); exists x, y;
      repeat split; auto; apply H; assumption.
Qed.

Lemma seed_order_free (o1 o2 : SetOrder) (r p : Z) (M : list Z) (x : tuple) :
  In x (@generate_multiplier_first_moves o1 r p M) <->
  In x (@generate_multiplier_first_moves o2 r p M).
Proof.
  unfold generate_multiplier_first_moves.
  destruct (r <=? 1); rewrite !set_of_In; reflexivity.
Qed.

(** What a returning run of [main] went through. *)
Lemma main_first_round (n : nat) (T : Z) (R : list Z) (tr : run)
    (ans : list Z) :
  main n T R = inr tr -> answer tr = Some ans ->
  exists r p k i,
    detect_multiplier (T - Py.sum R) modifiers = inr (r, p) /\
    Forall (fun x => In x modifiers) R /\
    (k < n)%nat /\ ans = R ++ i /\
    In i (round k (generate_multiplier_first_moves r p modifiers)) /\
    Py.sum i = T - Py.sum R /\
    forall j c, (j < k)%nat ->
                In c (round j (generate_multiplier_first_moves r p modifiers)) ->
                Py.sum c <> T - Py.sum R.
Proof.
  intros Hmain Hans.
  destruct (validate_cases R) as [[HF HV]|[_ HV]];
    [|rewrite (main_invalid n T R _ HV) in Hmain; discriminate].
  destruct (main_valid n T R HV) as (cs & Hcs & E).
  rewrite E in Hmain; injection Hmain as <-.
  unfold multiplier_calibration in Hcs.
  destruct (detect_multiplier (T - Py.sum R) modifiers) as [e|[r p]] eqn:Hdet;
    [discriminate|].
  cbn [bind] in Hcs; injection Hcs as <-.
  destruct (search_first_round _ _ _ _ _ Hans)
    as (k & i & Hk & -> & Hi & Hsum & Hmin).
  exists r, p, k, i; repeat split; auto.
Qed.

End DriverMore.

(** ** Sums of a bounded number of modifiers *)

Lemma sums_to_cons (m : Z) (ms : list Z) (L : nat) (n : Z) :
  sums_to (m :: ms) L n =
  sums_to ms L n ||
  match L with
  | O => false
  | S L' => sums_to (m :: ms) L' (n - m)
  end.
Proof. destruct L; reflexivity. Qed.

Lemma sums_to_sound (ms : list Z) (L : nat) (n : Z) :
  sums_to ms L n = true ->
  exists l, (length l <= L)%nat /\ Forall (fun y => In y ms) l /\
            Py.sum l = n.
Proof.
  revert L n; induction ms as [|m ms IHms]; intros L n.
  - cbn [sums_to]; intros E; apply Z.eqb_eq in E; subst.
    exists []; repeat split; [cbn; lia|constructor].
  - revert n; induction L as [|L IHL]; intros n; rewrite sums_to_cons;
      intros E; apply orb_true_iff in E as [E|E].
    + destruct (IHms _ _ E) as (l & Hl & HF & Hs).
      exists l; repeat split; auto.
      eapply Forall_impl; [|exact HF]; intros y Hy; right; exact Hy.
    + discriminate.
    + destruct (IHms _ _ E) as (l & Hl & HF & Hs).
      exists l; repeat split; auto.
      eapply Forall_impl; [|exact HF]; intros y Hy; right; exact Hy.
    + destruct (IHL _ E) as (l & Hl & HF & Hs).
      exists (m :: l); repeat split; [cbn; lia| |rewrite sum_cons; lia].
      constructor; [left; reflexivity|assumption].
Qed.

Lemma covers_complete (l : list Z) (L : nat) (n : Z) :
  (length l <= L)%nat -> Forall (fun y => In y modifiers) l ->
  Py.sum l = n -> covers L n = true.
Proof.
  revert L n; induction l as [|y l IH]; intros L n Hl HF Hs.
  - rewrite sum_nil in Hs; subst; destruct L; reflexivity.
  - destruct L as [|L]; [cbn in Hl; lia|].
    inversion HF as [|? ? Hy HF']; subst.
    cbn [covers]; apply orb_true_iff; right.
    apply existsb_exists; exists y; split; [assumption|].
    apply IH; auto; [cbn in Hl; lia|].
    rewrite sum_cons; lia.
Qed.

Lemma interval_In (lo n : Z) (len : nat) :
  lo <= n < lo + Z.of_nat len -> In n (interval lo len).
Proof.
  intros H; unfold interval; apply in_map_iff.
  exists (Z.to_nat (n - lo)); split; [lia|].
  apply in_seq; lia.
Qed.

Lemma sums_to_positive_residual :
  forallb (sums_to modifiers 5) (interval 38 16) = true.
Proof. vm_compute; reflexivity. Qed.

Lemma sums_to_negative_residual :
  forallb (sums_to modifiers 5) (interval 21 15) = true.
Proof. vm_compute; reflexivity. Qed.

Lemma sums_to_small_target :
  forallb (fun n => existsb (fun m => sums_to modifiers 5 (n - m)) modifiers)
          (interval 1 69) = true.
Proof. vm_compute; reflexivity. Qed.

(** ** The estimate and what it leaves to the search *)

Lemma estimate_bounds (T r p : Z) :
  detect_multiplier T modifiers = inr (r, p) ->
  (0 < T -> p = 16 /\ 38 <= T - r * 16 <= 53) /\
  (T <= 0 -> p = -15 /\ 2 <= r /\ 21 <= T - r * -15 <= 35).
Proof.
  rewrite detect_multiplier_fixed; intros E; split; intros HT.
  - destruct (Z.gtb_spec T 0); [|lia].
    injection E as <- <-.
    pose proof (Z.div_mod (T - 38) 16).
    pose proof (Z.mod_pos_bound (T - 38) 16).
    repeat split; lia.
  - destruct (Z.gtb_spec T 0); [lia|].
    injection E as <- <-.
    pose proof (Z.div_mod (T + -35) (-15)).
    pose proof (Z.mod_neg_bound (T + -35) (-15)).
    repeat split; lia.
Qed.

(** X5. With the fixed modifiers, a positive target gives base 16 and an
    estimate that leaves between 38 and 53 to reach, and exceeds 1 exactly
    from target 70 on; any other target gives base -15, an estimate of at
    least 2, and a seed that is already between 21 and 35 below the
    target. *)
Theorem detect_multiplier_residual (T r p : Z) :
  detect_multiplier T modifiers = inr (r, p) ->
  (0 < T -> p = 16 /\ 38 <= T - r * 16 <= 53 /\ (1 < r <-> 70 <= T)) /\
  (T <= 0 -> p = -15 /\ 2 <= r /\ 21 <= T - r * -15 <= 35).
Proof.
  intros E; destruct (estimate_bounds T r p E) as [Hpos Hneg].
  split; intros HT; [|exact (Hneg HT)].
  destruct (Hpos HT) as [-> Hres]; repeat split; lia.
Qed.

Lemma detect_multiplier_residual_witness :
  detect_multiplier 100 modifiers = inr (3, 16) /\
  (0 < 100 -> 16 = 16 /\ 38 <= 100 - 3 * 16 <= 53 /\ (1 < 3 <-> 70 <= 100)).
Proof.
  split; [reflexivity|].
  exact (proj1 (detect_multiplier_residual 100 3 16 eq_refl)).
Defined.

(** ** Every call returns, within six rounds *)

Lemma reach_within {order : SetOrder} (t : Z) :
  exists r p k c,
    detect_multiplier t modifiers = inr (r, p) /\ (k <= 5)%nat /\
    In c (round k (generate_multiplier_first_moves r p modifiers)) /\
    Py.sum c = t.
Proof.
  pose proof (detect_multiplier_fixed t) as Hdet.
  pose proof (proj1 (forallb_forall _ _) sums_to_positive_residual) as Hpos.
  pose proof (proj1 (forallb_forall _ _) sums_to_negative_residual) as Hneg.
  pose proof (proj1 (forallb_forall _ _) sums_to_small_target) as Hsmall.
  destruct (Z.gtb_spec t 0) as [Ht|Ht].
  - pose proof (Z.div_mod (t - 38) 16) as Hdiv.
    pose proof (Z.mod_pos_bound (t - 38) 16) as Hmod.
    set (r := (t - 38) / 16) in *.
    exists r, 16.
    destruct (Z.le_gt_cases r 1) as [Hr|Hr].
    + assert (Hin : In t (interval 1 69)) by (apply interval_In; lia).
      apply Hsmall, existsb_exists in Hin as (m & Hm & Hc).
      apply sums_to_sound in Hc as (l & Hl & HF & Hs).
      destruct (round_reach l (generate_multiplier_first_moves r 16 modifiers)
                  [m]) as (c & Hc & HP); [|assumption|].
      { apply seed_small; eauto. }
      exists (length l), c; repeat split; auto.
      rewrite (sum_Permutation _ _ HP), sum_app, sum_cons, sum_nil; lia.
    + assert (Hin : In (t - r * 16) (interval 38 16))
        by (apply interval_In; lia).
      apply Hpos, sums_to_sound in Hin as (l & Hl & HF & Hs).
      destruct (round_reach l (generate_multiplier_first_moves r 16 modifiers)
                  (repeat 16 (Z.to_nat r))) as (c & Hc & HP); [|assumption|].
      { rewrite (seed_large r 16 modifiers Hr); left; reflexivity. }
      exists (length l), c; repeat split; auto.
      rewrite (sum_Permutation _ _ HP), sum_app, sum_repeat; lia.
  - pose proof (Z.div_mod (t + -35) (-15)) as Hdiv.
    pose proof (Z.mod_neg_bound (t + -35) (-15)) as Hmod.
    set (r := (t + -35) / -15) in *.
    exists r, (-15).
    assert (Hr : 1 < r) by lia.
    assert (Hin : In (t - r * -15) (interval 21 15))
      by (apply interval_In; lia).
    apply Hneg, sums_to_sound in Hin as (l & Hl & HF & Hs).
    destruct (round_reach l (generate_multiplier_first_moves r (-15) modifiers)
                (repeat (-15) (Z.to_nat r))) as (c & Hc & HP); [|assumption|].
    { rewrite (seed_large r (-15) modifiers Hr); left; reflexivity. }
    exists (length l), c; repeat split; auto.
    rewrite (sum_Permutation _ _ HP), sum_app, sum_repeat; lia.
Qed.

(** X6. With required modifiers from the fixed list, [main] returns within
    six rounds of its loop, for every target, with an answer that sums to
    the target.  Six is needed: for target 69 no five rounds give an
    answer, in any enumeration order. *)
Theorem main_round_bound :
  (forall (order : SetOrder) (T : Z) (R : list Z),
      Forall (fun x => In x modifiers) R ->
      exists tr ans,
        main 6 T R = inr tr /\ answer tr = Some ans /\ Py.sum ans = T) /\
  (forall (order : SetOrder) (tr : run),
      main 5 69 [] = inr tr -> answer tr = None).
Proof.
  split.
  - intros order T R HR.
    destruct (validate_cases R) as [[_ HV]|[HE _]];
      [|destruct (Forall_Exists_exclusive R HR HE)].
    destruct (reach_within (T - Py.sum R))
      as (r & p & k & c & Hdet & Hk & Hc & Hsum).
    destruct (main_valid 6 T R HV) as (cs & Hcs & E).
    unfold multiplier_calibration in Hcs; rewrite Hdet in Hcs.
    cbn [bind] in Hcs; injection Hcs as <-.
    destruct (search_returns k _ R _ c Hc Hsum) as [ans Hans].
    rewrite (search_stable (S k) 6 _ _ _ ans Hans) in E; [|lia].
    exists (search (S k) (T - Py.sum R) R
              (generate_multiplier_first_moves r p modifiers)), ans.
    repeat split; auto.
    destruct (search_answer _ _ _ _ _ Hans) as (pre & i & _ & _ & Hi & ->).
    rewrite sum_app; lia.
  - intros order tr Hmain.
    destruct (answer tr) as [ans|] eqn:Hans; [exfalso|reflexivity].
    destruct (main_first_round 5 69 [] tr ans Hmain Hans)
      as (r & p & k & i & Hdet & _ & Hk & _ & Hi & Hsum & _).
    change (detect_multiplier 69 modifiers = inr (r, p)) in Hdet.
    injection Hdet as <- <-.
    apply round_origin in Hi as (x & l & Hx & Hl & HF & HP).
    apply seed_small in Hx as (m & Hm & ->); [|vm_compute; discriminate].
    rewrite (sum_Permutation _ _ HP), sum_app, sum_cons, sum_nil in Hsum.
    assert (Hcov : existsb (fun m => covers 4 (69 - m)) modifiers = true).
    { apply existsb_exists; exists m; split; [assumption|].
      apply (covers_complete l); auto; [lia|].
      change (Py.sum []) with 0 in Hsum; lia. }
    vm_compute in Hcov; discriminate.
Qed.

Lemma main_round_bound_witness :
  Forall (fun x => In x modifiers) [7] /\
  exists tr ans,
    main (order := listed_order) 6 9 [7] = inr tr /\
    answer tr = Some ans /\ Py.sum ans = 9.
Proof.
  assert (H : Forall (fun x => In x modifiers) [7]).
  { repeat constructor; unfold modifiers; simpl; tauto. }
  split; [exact H|].
  exact (proj1 main_round_bound listed_order 9 [7] H).
Defined.

(** ** What the answer looks like *)

Lemma round_members_length {order : SetOrder} (k : nat) (r p : Z) (c : tuple) :
  In c (round k (generate_multiplier_first_moves r p modifiers)) ->
  length c = (seed_length r + k)%nat.
Proof.
  intros Hc; destruct (round_origin k _ c Hc) as (x & l & Hx & Hl & _ & HP).
  rewrite (Permutation_length HP), length_app, Hl.
  rewrite (seed_members_length r p x Hx); reflexivity.
Qed.

Lemma detect_multiplier_fixed_base (t r p : Z) :
  detect_multiplier t modifiers = inr (r, p) -> In p modifiers.
Proof.
  rewrite detect_multiplier_fixed.
  destruct (t >? 0); intros E; injection E as <- <-;
    unfold modifiers; simpl; tauto.
Qed.

(** X7. An answer of [main] is the required modifiers followed by a
    non-empty ascending tuple; all its members are fixed modifiers. *)
Theorem main_answer_members {order : SetOrder}
    (n : nat) (T : Z) (R : list Z) (tr : run) (ans : list Z) :
  main n T R = inr tr -> answer tr = Some ans ->
  Forall (fun x => In x modifiers) ans /\
  exists i, ans = R ++ i /\ i <> [] /\ Sorted Z.le i.
Proof.
  intros Hmain Hans.
  destruct (main_first_round n T R tr ans Hmain Hans)
    as (r & p & k & i & Hdet & HR & _ & -> & Hi & _ & _).
  pose proof (round_Sorted k r p i Hi) as Hs.
  pose proof (round_members_length k r p i Hi) as Hlen.
  destruct (round_origin k _ i Hi) as (x & l & Hx & _ & HF & HP).
  split.
  - apply Forall_app; split; [assumption|].
    symmetry in HP; apply (Permutation_Forall HP).
    apply Forall_app; split; [|assumption].
    destruct (Z.le_gt_cases r 1) as [Hr|Hr].
    + apply seed_small in Hx as (m & Hm & ->); auto.
    + rewrite (seed_large r p modifiers Hr) in Hx; destruct Hx as [<-|[]].
      apply Forall_forall; intros y Hy; apply repeat_spec in Hy; subst.
      apply (detect_multiplier_fixed_base _ _ _ Hdet).
  - exists i; repeat split; auto.
    intros ->; cbn in Hlen; unfold seed_length in Hlen.
    destruct (Z.leb_spec r 1); lia.
Qed.

Lemma main_answer_members_witness :
  main (order := listed_order) 1 9 [7]
  = inr {| scanned := [[-5]; [-6]; [-9]; [-15]; [2]];
           answer := Some [7; 2] |} /\
  Forall (fun x => In x modifiers) [7; 2].
Proof.
  split; [reflexivity|].
  exact (proj1 (main_answer_members (order := listed_order)
                  1 9 [7] _ [7; 2] eq_refl eq_refl)).
Defined.

(** X8. The loop returns in the first round that holds a match, so the
    answer is as short as the seed allows: no seed tuple extended by fixed
    modifiers reaches the adjusted target with fewer members.  When the
    estimate is at most 1 the seed is every single modifier, and the answer
    is a shortest non-empty combination altogether. *)
Theorem main_answer_shortest {order : SetOrder}
    (n : nat) (T : Z) (R : list Z) (tr : run) (ans : list Z) (r p : Z) :
  main n T R = inr tr -> answer tr = Some ans ->
  detect_multiplier (T - Py.sum R) modifiers = inr (r, p) ->
  (forall x l,
      In x (generate_multiplier_first_moves r p modifiers) ->
      Forall (fun y => In y modifiers) l ->
      Py.sum x + Py.sum l = T - Py.sum R ->
      (length ans <= length R + (length x + length l))%nat) /\
  (r <= 1 ->
   forall l, l <> [] -> Forall (fun y => In y modifiers) l ->
             Py.sum l = T - Py.sum R ->
             (length ans <= length R + length l)%nat).
Proof.
  intros Hmain Hans Hdet.
  destruct (main_first_round n T R tr ans Hmain Hans)
    as (r' & p' & k & i & Hdet' & _ & _ & -> & Hi & _ & Hmin).
  rewrite Hdet in Hdet'; injection Hdet' as <- <-.
  pose proof (round_members_length k r p i Hi) as Hlen.
  assert (Hfirst : forall x l,
             In x (generate_multiplier_first_moves r p modifiers) ->
             Forall (fun y => In y modifiers) l ->
             Py.sum x + Py.sum l = T - Py.sum R ->
             (length (R ++ i) <= length R + (length x + length l))%nat).
  { intros x l Hx HF Hsum.
    destruct (round_reach l _ x Hx HF) as (c & Hc & HP).
    assert (Hc' : Py.sum c = T - Py.sum R)
      by (rewrite (sum_Permutation _ _ HP), sum_app; exact Hsum).
    assert (Hk : (k <= length l)%nat).
    { destruct (Nat.le_gt_cases k (length l)) as [H|H]; [exact H|].
      destruct (Hmin (length l) c H Hc Hc'). }
    rewrite length_app, Hlen, (seed_members_length r p x Hx); lia. }
  split; [exact Hfirst|].
  intros Hr l Hne HF Hsum.
  destruct l as [|y l]; [congruence|].
  inversion HF as [|? ? Hy HF']; subst.
  assert (H : (length (R ++ i) <= length R + (length [y] + length l))%nat).
  { apply Hfirst; auto.
    - apply seed_small; eauto.
    - rewrite sum_cons in Hsum; rewrite sum_cons, sum_nil; lia. }
  cbn [length] in *; lia.
Qed.

Lemma main_answer_shortest_witness :
  main (order := listed_order) 1 9 [7]
  = inr {| scanned := [[-5]; [-6]; [-9]; [-15]; [2]];
           answer := Some [7; 2] |} /\
  detect_multiplier (9 - Py.sum [7]) modifiers = inr (-3, 16) /\
  (-3 <= 1 ->
   forall l, l <> [] -> Forall (fun y => In y modifiers) l ->
             Py.sum l = 9 - Py.sum [7] ->
             (length [7%Z; 2%Z] <= length [7%Z] + length l)%nat).
Proof.
  split; [reflexivity|]; split; [reflexivity|].
  exact (proj2 (main_answer_shortest (order := listed_order)
                  1 9 [7] _ [7; 2] (-3) 16 eq_refl eq_refl eq_refl)).
Defined.

(** X9. Which match is returned depends on the enumeration order of the
    sets, but not how long it is: two runs for the same target and required
    modifiers, under any two orders and round bounds, return answers of the
    same length (and the same sum). *)
Theorem main_answer_length_order_free
    (o1 o2 : SetOrder) (n1 n2 : nat) (T : Z) (R : list Z)
    (tr1 tr2 : run) (a1 a2 : list Z) :
  @main o1 n1 T R = inr tr1 -> answer tr1 = Some a1 ->
  @main o2 n2 T R = inr tr2 -> answer tr2 = Some a2 ->
  length a1 = length a2 /\ Py.sum a1 = Py.sum a2.
Proof.
  intros H1 A1 H2 A2.
  destruct (@main_first_round o1 n1 T R tr1 a1 H1 A1)
    as (r & p & k1 & i1 & Hdet & _ & _ & -> & Hi1 & Hs1 & Hmin1).
  destruct (@main_first_round o2 n2 T R tr2 a2 H2 A2)
    as (r' & p' & k2 & i2 & Hdet' & _ & _ & -> & Hi2 & Hs2 & Hmin2).
  rewrite Hdet in Hdet'; injection Hdet' as <- <-.
  pose proof (fun k => round_order_free o1 o2 k _ _
                         (seed_order_free o1 o2 r p modifiers)) as Hfree.
  assert (Hk : k1 = k2).
  { destruct (Nat.lt_trichotomy k1 k2) as [H|[H|H]]; [|exact H|].
    - destruct (Hmin2 k1 i1 H (proj1 (Hfree k1 i1) Hi1) Hs1).
    - destruct (Hmin1 k2 i2 H (proj2 (Hfree k2 i2) Hi2) Hs2). }
  subst k2; split.
  - rewrite !length_app.
    rewrite (@round_members_length o1 k1 r p i1 Hi1).
    rewrite (@round_members_length o2 k1 r p i2 Hi2); reflexivity.
  - rewrite !sum_app; lia.
Qed.

Lemma main_answer_length_order_free_witness :
  (exists tr1, main (order := listed_order) 2 4 [] = inr tr1 /\
               answer tr1 = Some [2; 2]) /\
  (exists tr2, main (order := reversed_order) 2 4 [] = inr tr2 /\
               answer tr2 = Some [-9; 13]) /\
  length [2; 2] = length [-9; 13] /\ Py.sum [2; 2] = Py.sum [-9; 13].
Proof.
  split; [eexists; split; reflexivity|].
  split; [eexists; split; reflexivity|].
  exact (main_answer_length_order_free listed_order reversed_order
           2 2 4 [] _ _ [2; 2] [-9; 13]
           eq_refl eq_refl eq_refl eq_refl).
Defined.

(** X10. When the estimate [r] exceeds 1, the answer holds the base
    modifier at least [r] times and at least one more modifier.  That is
    the case for every adjusted target that is not positive: the answer
    then holds -15 at least twice, and has at least three members besides
    the required ones. *)
Theorem main_answer_seeded {order : SetOrder}
    (n : nat) (T : Z) (R : list Z) (tr : run) (ans : list Z) (r p : Z) :
  main n T R = inr tr -> answer tr = Some ans ->
  detect_multiplier (T - Py.sum R) modifiers = inr (r, p) ->
  exists i,
    ans = R ++ i /\
    (1 < r -> (Z.to_nat r <= count_occ Z.eq_dec i p)%nat /\
              (Z.to_nat r < length i)%nat) /\
    (T - Py.sum R <= 0 -> (2 <= count_occ Z.eq_dec i (-15)%Z)%nat /\
                          (3 <= length i)%nat).
Proof.
  intros Hmain Hans Hdet.
  destruct (main_first_round n T R tr ans Hmain Hans)
    as (r' & p' & k & i & Hdet' & _ & _ & -> & Hi & Hsum & _).
  rewrite Hdet in Hdet'; injection Hdet' as <- <-.
  pose proof (round_members_length k r p i Hi) as Hlen.
  assert (Hseeded : 1 < r ->
            (Z.to_nat r <= count_occ Z.eq_dec i p)%nat /\
            (Z.to_nat r < length i)%nat).
  { intros Hr; split.
    - apply (round_count k (Z.to_nat r) _ p) in Hi; [assumption|].
      rewrite (seed_large r p modifiers Hr); intros x [<-|[]].
      rewrite count_occ_repeat_eq; auto.
    - unfold seed_length in Hlen.
      destruct (Z.leb_spec r 1); [lia|].
      destruct k as [|k]; [exfalso|lia].
      cbn [round] in Hi.
      rewrite (seed_large r p modifiers Hr) in Hi; destruct Hi as [<-|[]].
      rewrite sum_repeat in Hsum.
      pose proof (estimate_bounds _ _ _ Hdet) as [Hpos Hneg].
      destruct (Z.lt_ge_cases 0 (T - Py.sum R)) as [HT|HT].
      + destruct (Hpos HT) as (-> & Hres); lia.
      + destruct (Hneg HT) as (-> & _ & Hres); lia. }
  exists i; split; [reflexivity|]; split; [exact Hseeded|].
  intros HT.
  pose proof (estimate_bounds _ _ _ Hdet) as [_ Hneg].
  destruct (Hneg HT) as (-> & Hr & _).
  destruct Hseeded as [Hc Hl]; lia.
Qed.

Lemma main_answer_seeded_witness :
  (exists tr, main (order := listed_order) 4 (-5) [] = inr tr /\
              answer tr = Some [-15; -15; 2; 7; 16]) /\
  detect_multiplier (-5 - Py.sum []) modifiers = inr (2, -15) /\
  exists i,
    [-15; -15; 2; 7; 16] = [] ++ i /\
    (1 < 2 -> (Z.to_nat 2 <= count_occ Z.eq_dec i (-15)%Z)%nat /\
              (Z.to_nat 2 < length i)%nat) /\
    (-5 - Py.sum [] <= 0 -> (2 <= count_occ Z.eq_dec i (-15)%Z)%nat /\
                            (3 <= length i)%nat).
Proof.
  split; [eexists; split; [reflexivity|vm_compute; reflexivity]|].
  split; [reflexivity|].
  refine (main_answer_seeded (order := listed_order)
            4 (-5) [] _ [-15; -15; 2; 7; 16] 2 (-15) eq_refl _ eq_refl).
  vm_compute; reflexivity.
Defined.
